(** * text/template: template options (option.go)

    A shallow embedding of [src/text/template/option.go]: the two policy
    enumerations, the [option] struct, and the methods [Option] and
    [setOption] of [*Template].  Go pointers are locations of an explicit
    heap, a Go [panic] is an outcome that carries the panic value together
    with the heap as it was when the panic was raised. *)

From Stdlib Require Import ZArith String Ascii List Bool.
From stdpp Require Import gmap strings.

Local Open Scope string_scope.
Local Open Scope Z_scope.

Module template.

(** ** Data model *)

(** [type missingKeyAction int]: how to respond to indexing a map with a key
    that is not present.  The constants are numbered by [iota]. *)
Definition missingKeyAction := Z.

Definition mapInvalid : missingKeyAction := 0.   (* Return an invalid reflect.Value. *)
Definition mapZeroValue : missingKeyAction := 1. (* Return the zero value for the map element. *)
Definition mapError : missingKeyAction := 2.     (* Error out *)

(** [type onPanicAction int]: how to handle template function panics. *)
Definition onPanicAction := Z.

Definition panicRecover : onPanicAction := 0. (* Recover the panic and return it as an error *)
Definition panicNop : onPanicAction := 1.     (* Do nothing, let the caller handle the panic *)

(** [type option struct { missingKey; onPanic }], the second (two-field)
    declaration of the source.  Inside this module [option] is the Go
    struct; the option type of the library is written [Datatypes.option]. *)
Record option := mkOption {
  missingKey : missingKeyAction;
  onPanic : onPanicAction
}.

(** The zero value of the struct, as Go gives to every freshly allocated
    [option]: all fields are [0]. *)
Definition zeroOption : option := {| missingKey := 0; onPanic := 0 |}.

(** A field holds one of the declared constants. *)
Definition validMissingKey (a : missingKeyAction) : bool :=
  (a =? mapInvalid) || (a =? mapZeroValue) || (a =? mapError).

Definition validOnPanic (a : onPanicAction) : bool :=
  (a =? panicRecover) || (a =? panicNop).

Definition validOption (o : option) : bool :=
  validMissingKey (missingKey o) && validOnPanic (onPanic o).

(** Modelled from the spec: the [Template] struct is declared outside
    option.go.  Of a template object only its Policy Store matters here:
    exactly one per template, absent ([None]) until the template has been
    initialised, then holding a value for both fields. *)
Record Template := mkTemplate {
  store : Datatypes.option option
}.

(** A [*Template] is a location of the heap; a location the heap does not
    hold stands for the nil pointer. *)
Definition ptr := positive.
Abbreviation heap := (gmap ptr Template).

(** ** Panics and the heap *)

Inductive outcome (A : Type) : Type :=
| Returned (a : A) (h : heap)
| Panicked (v : string) (h : heap).
Arguments Returned {A} a h.
Arguments Panicked {A} v h.

Definition M (A : Type) : Type := heap -> outcome A.

#[export] Instance M_ret : MRet M := fun A a h => Returned a h.

#[export] Instance M_bind : MBind M := fun A B k m h =>
  match m h with
  | Returned a h' => k a h'
  | Panicked v h' => Panicked v h'
  end.

Definition panic {A} (v : string) : M A := fun h => Panicked v h.

(** The value of the run-time panic of a nil dereference. *)
Definition nilDereference : string :=
  "runtime error: invalid memory address or nil pointer dereference".

(** Read [t.option]. *)
Definition loadOption (t : ptr) : M option :=
  fun h => match h !! t with
           | Some {| store := Some o |} => Returned o h
           | _ => Panicked nilDereference h
           end.

(** Write [t.option = o]. *)
Definition storeOption (t : ptr) (o : option) : M unit :=
  fun h => match h !! t with
           | Some {| store := Some _ |} =>
               Returned tt (<[t := {| store := Some o |}]> h)
           | _ => Panicked nilDereference h
           end.

(** [t.option.missingKey = a] *)
Definition setMissingKey (t : ptr) (a : missingKeyAction) : M unit :=
  o ← loadOption t;
  storeOption t {| missingKey := a; onPanic := onPanic o |}.

(** [t.option.onPanic = a] *)
Definition setOnPanic (t : ptr) (a : onPanicAction) : M unit :=
  o ← loadOption t;
  storeOption t {| missingKey := missingKey o; onPanic := a |}.

(** Modelled from the spec: the method [init] of [*Template] is defined
    outside option.go.
    It ensures that the store is initialised with the defaults: a template
    without a store receives a fresh one (the zero value), a template that
    has one keeps it. *)
Definition init (t : ptr) : M unit :=
  fun h => match h !! t with
           | None => Panicked nilDereference h
           | Some {| store := Some _ |} => Returned tt h
           | Some {| store := None |} =>
               Returned tt (<[t := {| store := Some zeroOption |}]> h)
           end.

(** ** Strings *)

(** [s] with the leading [prefix] removed, when [s] starts with it. *)
Fixpoint trimPrefix (s prefix : string) {struct prefix}
  : Datatypes.option string :=
  match prefix, s with
  | EmptyString, _ => Some s
  | String p prefix', String c s' =>
      if Ascii.eqb p c then trimPrefix s' prefix' else None
  | String _ _, EmptyString => None
  end.

(** Modelled from the spec: [strings.Cut] belongs to package strings,
    outside option.go.  It splits [s] at the first instance of [sep] into
    the text before and the text after it; when [sep] does not occur in
    [s] the result is [(s, "", false)]. *)
Fixpoint Cut (s sep : string) : string * string * bool :=
  match trimPrefix s sep with
  | Some after => ("", after, true)
  | None =>
      match s with
      | EmptyString => (s, "", false)
      | String c s' =>
          let '(before, after, found) := Cut s' sep in
          if found then (String c before, after, true) else (s, "", false)
      end
  end.

(** The byte [c] occurs in [s]. *)
Fixpoint hasByte (c : ascii) (s : string) : bool :=
  match s with
  | EmptyString => false
  | String d s' => Ascii.eqb c d || hasByte c s'
  end.

(** ** The methods of option.go *)

(** The final [panic("unrecognized option: " + opt)], reached by every path
    of [setOption] that does not return from inside the switch. *)
Definition unrecognized (opt : string) : M unit :=
  panic ("unrecognized option: " ++ opt).

Definition setOption (t : ptr) (opt : string) : M unit :=
  if String.eqb opt "" then panic "empty option string"
  else
    let '(key, value, ok) := Cut opt "=" in
    if ok then
      if String.eqb key "missingkey" then
        if String.eqb value "invalid" || String.eqb value "default" then
          setMissingKey t mapInvalid
        else if String.eqb value "zero" then
          setMissingKey t mapZeroValue
        else if String.eqb value "error" then
          setMissingKey t mapError
        else unrecognized opt
      else if String.eqb key "onpanic" then
        if String.eqb value "recover" then
          setOnPanic t panicRecover
        else if String.eqb value "nop" then
          setOnPanic t panicNop
        else unrecognized opt
      else unrecognized opt
    else unrecognized opt.

(** [for _, s := range opt { t.setOption(s) }] *)
Fixpoint rangeSetOption (t : ptr) (opt : list string) : M unit :=
  match opt with
  | [] => mret tt
  | s :: rest => setOption t s;; rangeSetOption t rest
  end.

Definition Option (t : ptr) (opt : list string) : M ptr :=
  init t;;
  rangeSetOption t opt;;
  mret t.

(** ** Reading the Policy Store *)

(** The store of the template at [t], when there is one. *)
Definition optionAt (h : heap) (t : ptr) : Datatypes.option option :=
  h !! t ≫= store.

(** The two read accessors: [t.option.missingKey] and [t.option.onPanic]. *)
Definition currentMissingKeyPolicy (h : heap) (t : ptr)
  : Datatypes.option missingKeyAction := missingKey <$> optionAt h t.

Definition currentFaultPolicy (h : heap) (t : ptr)
  : Datatypes.option onPanicAction := onPanic <$> optionAt h t.

(** The effect column of the table: which field is set, and to what. *)
Inductive effect : Type :=
| SetMissingKey (a : missingKeyAction)
| SetOnPanic (a : onPanicAction).

(** The accessor of the field an effect names returns the effect's value. *)
Definition accessorReturns (h : heap) (t : ptr) (e : effect) : Prop :=
  match e with
  | SetMissingKey a => currentMissingKeyPolicy h t = Some a
  | SetOnPanic a => currentFaultPolicy h t = Some a
  end.

(** [Option] with the single string [s] succeeds on [h] and the matching
    accessor then returns the value of [e]. *)
Definition OptionSets (t : ptr) (h : heap) (s : string) (e : effect) : Prop :=
  exists h', Option t [s] h = Returned t h' /\ accessorReturns h' t e.

(** The heap an outcome leaves behind, whether it returned or panicked. *)
Definition heapOf {A} (r : outcome A) : heap :=
  match r with
  | Returned _ h => h
  | Panicked _ h => h
  end.

(** ** The recognized table of the specification *)

(** The table of recognized key, value and effect, as the specification
    lists it; [setOption] is compared with it below. *)
Definition recognizedTable : list (string * string * effect) :=
  [ ("missingkey", "invalid", SetMissingKey mapInvalid);
    ("missingkey", "default", SetMissingKey mapInvalid);
    ("missingkey", "zero", SetMissingKey mapZeroValue);
    ("missingkey", "error", SetMissingKey mapError);
    ("onpanic", "recover", SetOnPanic panicRecover);
    ("onpanic", "nop", SetOnPanic panicNop) ].

(** The option string that names [key] and [value]. *)
Definition optionString (key value : string) : string :=
  key ++ "=" ++ value.

(** The effect the table gives to the pair [key], [value]. *)
Definition tableEffect (key value : string) : Datatypes.option effect :=
  snd <$> find (fun '(k, v, _) => String.eqb key k && String.eqb value v)
               recognizedTable.

(** The effect the table gives to a whole option string. *)
Definition resolve (opt : string) : Datatypes.option effect :=
  snd <$> find (fun '(k, v, _) => String.eqb opt (optionString k v))
               recognizedTable.

(** The store after an effect. *)
Definition applyEffect (e : effect) (o : option) : option :=
  match e with
  | SetMissingKey a => {| missingKey := a; onPanic := onPanic o |}
  | SetOnPanic a => {| missingKey := missingKey o; onPanic := a |}
  end.

(** The field an effect names holds the effect's value. *)
Definition holds (e : effect) (o : option) : Prop :=
  match e with
  | SetMissingKey a => missingKey o = a
  | SetOnPanic a => onPanic o = a
  end.

(** Two effects name the same field. *)
Definition sameField (e1 e2 : effect) : bool :=
  match e1, e2 with
  | SetMissingKey _, SetMissingKey _ => true
  | SetOnPanic _, SetOnPanic _ => true
  | _, _ => false
  end.

(** The assignment of [setOption] that carries out an effect. *)
Definition runEffect (t : ptr) (e : effect) : M unit :=
  match e with
  | SetMissingKey a => setMissingKey t a
  | SetOnPanic a => setOnPanic t a
  end.

(** The value [setOption] panics with on a string it rejects. *)
Definition rejection (opt : string) : string :=
  if String.eqb opt "" then "empty option string"
  else "unrecognized option: " ++ opt.

(** The store after a sequence of option strings, each overwriting the
    field its row of the table names, read from left to right. *)
Definition applyAll (opts : list string) (o : option) : option :=
  foldl (fun o s => match resolve s with
                    | Some e => applyEffect e o
                    | None => o
                    end) o opts.

(** Every string of the sequence is in the table. *)
Definition allRecognized (opts : list string) : Prop :=
  Forall (fun s => is_Some (resolve s)) opts.

(** Every store of the heap holds declared constants in both fields. *)
Definition heapValid (h : heap) : Prop :=
  forall t o, optionAt h t = Some o -> validOption o = true.

(** What a heap may become: valid stores stay valid, and a template that
    has a store keeps having one. *)
Definition evolves (h h' : heap) : Prop :=
  (heapValid h -> heapValid h')
  /\ (forall t, is_Some (optionAt h t) -> is_Some (optionAt h' t)).

(** A computation leaves behind only heaps related to the one it started
    from, also when it panics. *)
Definition preserves {A} (R : heap -> heap -> Prop) (m : M A) : Prop :=
  forall h, R h (heapOf (m h)).

(** One call of a method of option.go (or of [init]) on some template;
    the heap it leaves behind is kept whether the call returned or
    panicked. *)
Inductive step : heap -> heap -> Prop :=
| step_init t h : step h (heapOf (init t h))
| step_setOption t opt h : step h (heapOf (setOption t opt h))
| step_Option t opts h : step h (heapOf (Option t opts h)).

(** ** Further notions for the properties of [Option] and [setOption] *)

(** The six strings on which [setOption] reaches an assignment. *)
Definition recognizedStrings : list string :=
  [ "missingkey=invalid"; "missingkey=default"; "missingkey=zero";
    "missingkey=error"; "onpanic=recover"; "onpanic=nop" ].

(** How many times the byte [c] occurs in [s]. *)
Fixpoint countByte (c : ascii) (s : string) : nat :=
  match s with
  | EmptyString => O
  | String d s' => ((if Ascii.eqb c d then 1 else 0) + countByte c s')%nat
  end.


(** ** Two small heaps, used to run the properties below *)

(** A heap with one template that has not been initialised yet. *)
Definition freshHeap : heap := {[ 1%positive := {| store := None |} ]}.

(** A heap whose template already holds [missingkey=error], [onpanic=nop]. *)
Definition usedHeap : heap :=
  {[ 1%positive := {| store := Some {| missingKey := mapError;
                                       onPanic := panicNop |} |} ]}.

(** ** The code on concrete inputs *)

Section Runs.

Example Cut_at_first_separator : Cut "a=b=c" "=" = ("a", "b=c", true).
Proof. reflexivity. Qed.

Example Cut_without_separator : Cut "onpanic" "=" = ("onpanic", "", false).
Proof. reflexivity. Qed.

Example Cut_empty_value : Cut "missingkey=" "=" = ("missingkey", "", true).
Proof. reflexivity. Qed.

Example Option_two_fields :
  Option 1%positive ["missingkey=zero"; "onpanic=nop"] freshHeap
  = Returned 1%positive
      {[ 1%positive := {| store := Some {| missingKey := mapZeroValue;
                                           onPanic := panicNop |} |} ]}.
Proof. vm_compute. reflexivity. Qed.

Example Option_panics_in_the_middle :
  Option 1%positive ["missingkey=zero"; "onpanic=nope"; "missingkey=error"]
    freshHeap
  = Panicked "unrecognized option: onpanic=nope"
      {[ 1%positive := {| store := Some {| missingKey := mapZeroValue;
                                           onPanic := panicRecover |} |} ]}.
Proof. vm_compute. reflexivity. Qed.

Example Option_keeps_the_store :
  Option 1%positive ["onpanic=recover"] usedHeap
  = Returned 1%positive
      {[ 1%positive := {| store := Some {| missingKey := mapError;
                                           onPanic := panicRecover |} |} ]}.
Proof. vm_compute. reflexivity. Qed.

Example Option_nil_receiver :
  Option 2%positive ["missingkey=zero"] freshHeap
  = Panicked nilDereference freshHeap.
Proof. vm_compute. reflexivity. Qed.

Example resolve_error : resolve "missingkey=error" = Some (SetMissingKey mapError).
Proof. reflexivity. Qed.

Example resolve_key_alone : resolve "missingkey" = None.
Proof. reflexivity. Qed.

Example resolve_two_separators : resolve "missingkey=zero=" = None.
Proof. reflexivity. Qed.

End Runs.

(** ** Facts about the string functions *)

Section Strings.

#[local] Arguments String.append !_ _ / : simpl nomatch.

Lemma trimPrefix_Some s prefix rest :
  trimPrefix s prefix = Some rest -> s = prefix ++ rest.
Proof.
  revert s; induction prefix as [|p prefix IH]; intros s H; simpl in *.
  - congruence.
  - destruct s as [|c s]; [discriminate|].
    destruct (Ascii.eqb p c) eqn:E; [|discriminate].
    apply Ascii.eqb_eq in E; subst c.
    f_equal; auto.
Qed.

Lemma Cut_found s sep before after :
  Cut s sep = (before, after, true) -> s = before ++ sep ++ after.
Proof.
  revert before; induction s as [|c s IH]; intros before; simpl.
  - destruct (trimPrefix "" sep) eqn:E; [|discriminate].
    intros [= <- <-]. now apply trimPrefix_Some in E.
  - destruct (trimPrefix (String c s) sep) eqn:E.
    + intros [= <- <-]. now apply trimPrefix_Some in E.
    + destruct (Cut s sep) as [[b a] found].
      destruct found; [|discriminate].
      intros [= <- <-]. simpl. f_equal. now apply IH.
Qed.

Lemma Cut_not_found s sep before after :
  Cut s sep = (before, after, false) -> before = s /\ after = "".
Proof.
  destruct s as [|c s]; simpl.
  - destruct (trimPrefix "" sep); [discriminate|]. now intros [= <- <-].
  - destruct (trimPrefix (String c s) sep); [discriminate|].
    destruct (Cut s sep) as [[b a] found].
    destruct found; [discriminate|]. now intros [= <- <-].
Qed.

Lemma Cut_byte_absent c s :
  hasByte c s = false -> Cut s (String c "") = (s, "", false).
Proof.
  induction s as [|d s IH]; simpl; [reflexivity|].
  intros H. apply orb_false_iff in H as [Hd Hs].
  rewrite Hd, (IH Hs). reflexivity.
Qed.

Lemma Cut_byte_first c before after :
  hasByte c before = false ->
  Cut (before ++ String c after) (String c "") = (before, after, true).
Proof.
  induction before as [|d b IH]; simpl.
  - intros _. rewrite Ascii.eqb_refl. reflexivity.
  - intros H. apply orb_false_iff in H as [Hd Hb].
    rewrite Hd, (IH Hb). reflexivity.
Qed.

Lemma hasByte_app c s1 s2 :
  hasByte c (s1 ++ s2) = hasByte c s1 || hasByte c s2.
Proof.
  induction s1 as [|d s1 IH]; simpl; [reflexivity|].
  now rewrite IH, orb_assoc.
Qed.

Lemma hasByte_split c s :
  hasByte c s = true ->
  exists before after, s = before ++ String c after /\ hasByte c before = false.
Proof.
  induction s as [|d s IH]; simpl; [discriminate|].
  destruct (Ascii.eqb c d) eqn:E; simpl.
  - intros _. apply Ascii.eqb_eq in E; subst d. now exists "", s.
  - intros H. destruct (IH H) as (b & a & -> & Hb).
    exists (String d b), a. simpl. now rewrite E, Hb.
Qed.

Lemma append_String_assoc s1 c s2 s3 :
  (s1 ++ String c s2) ++ s3 = s1 ++ String c (s2 ++ s3).
Proof.
  induction s1 as [|d s1 IH]; simpl; [reflexivity|]. now rewrite IH.
Qed.

(** A string with a single separator splits in one way only. *)
Lemma optionString_inj key value k v :
  hasByte "=" k = false -> hasByte "=" v = false ->
  optionString key value = optionString k v -> key = k /\ value = v.
Proof.
  unfold optionString. intros Hk Hv E.
  assert (Hc : Cut (key ++ "=" ++ value) "=" = (k, v, true)).
  { rewrite E. now apply Cut_byte_first. }
  destruct (hasByte "=" key) eqn:Hkey.
  - destruct (hasByte_split _ _ Hkey) as (b & a & -> & Hb).
    rewrite append_String_assoc in Hc.
    rewrite (Cut_byte_first "=" b _ Hb) in Hc.
    injection Hc as <- <-.
    rewrite hasByte_app in Hv. simpl in Hv.
    now rewrite orb_true_r in Hv.
  - change ("=" ++ value) with (String "=" value) in Hc.
    rewrite (Cut_byte_first "=" key value Hkey) in Hc.
    now injection Hc.
Qed.

End Strings.

(** ** Facts about the heap operations *)

Section Heap.

Implicit Types (h : heap) (t : ptr) (o : option) (e : effect).

Lemma optionAt_Some h t o :
  optionAt h t = Some o <-> h !! t = Some {| store := Some o |}.
Proof.
  unfold optionAt. destruct (h !! t) as [[[o'|]]|]; simpl; split; congruence.
Qed.

Lemma optionAt_insert h t o :
  optionAt (<[t := {| store := Some o |}]> h) t = Some o.
Proof. unfold optionAt. now rewrite lookup_insert_eq. Qed.

Lemma optionAt_insert_ne h t t' tm :
  t <> t' -> optionAt (<[t := tm]> h) t' = optionAt h t'.
Proof. intros Hne. unfold optionAt. now rewrite lookup_insert_ne. Qed.

Lemma runEffect_Returned h t o e :
  optionAt h t = Some o ->
  runEffect t e h
  = Returned tt (<[t := {| store := Some (applyEffect e o) |}]> h).
Proof.
  intros H. apply optionAt_Some in H.
  destruct e; unfold runEffect, setMissingKey, setOnPanic, loadOption,
    storeOption, mbind, M_bind; rewrite H; simpl; now rewrite H.
Qed.

Lemma runEffect_nil h t e :
  optionAt h t = None -> runEffect t e h = Panicked nilDereference h.
Proof.
  unfold optionAt. intros H.
  destruct e; unfold runEffect, setMissingKey, setOnPanic, loadOption,
    mbind, M_bind; destruct (h !! t) as [[[o'|]]|]; simpl in *; congruence.
Qed.

Lemma init_Returned h t tm :
  h !! t = Some tm ->
  exists h', init t h = Returned tt h'
    /\ optionAt h' t = Some (default zeroOption (store tm))
    /\ forall t', t <> t' -> h' !! t' = h !! t'.
Proof.
  intros H. unfold init. rewrite H. destruct tm as [[o|]]; simpl.
  - exists h. repeat split. now apply optionAt_Some.
  - eexists. repeat split.
    + apply optionAt_insert.
    + intros t' Hne. now rewrite lookup_insert_ne.
Qed.

Lemma init_initialised h t o :
  optionAt h t = Some o -> init t h = Returned tt h.
Proof. intros H. apply optionAt_Some in H. unfold init. now rewrite H. Qed.

End Heap.

(** ** [setOption] against the table *)

Section Table.

Implicit Types (h : heap) (t : ptr) (o : option) (e : effect).

Lemma resolve_unfold opt :
  resolve opt =
    if String.eqb opt "missingkey=invalid" then Some (SetMissingKey mapInvalid)
    else if String.eqb opt "missingkey=default" then Some (SetMissingKey mapInvalid)
    else if String.eqb opt "missingkey=zero" then Some (SetMissingKey mapZeroValue)
    else if String.eqb opt "missingkey=error" then Some (SetMissingKey mapError)
    else if String.eqb opt "onpanic=recover" then Some (SetOnPanic panicRecover)
    else if String.eqb opt "onpanic=nop" then Some (SetOnPanic panicNop)
    else None.
Proof.
  unfold resolve, recognizedTable, optionString; simpl find.
  repeat (match goal with
          | |- context [String.eqb opt ?s] =>
              let s' := eval vm_compute in s in
              change s with s'; destruct (String.eqb opt s'); try reflexivity
          end).
Qed.

(** The code and the table agree on every string: a string of the table
    runs the assignment of its row, any other string panics and leaves
    the heap alone. *)
Lemma setOption_table t opt :
  setOption t opt =
    match resolve opt with
    | Some e => runEffect t e
    | None => panic (rejection opt)
    end.
Proof.
  rewrite resolve_unfold.
  repeat (match goal with
          | |- context [String.eqb opt ?s] =>
              destruct (String.eqb_spec opt s) as [->|?]; [reflexivity|]
          end).
  unfold setOption, rejection, unrecognized.
  destruct (String.eqb opt ""); [reflexivity|].
  destruct (Cut opt "=") as [[key value] ok] eqn:E.
  destruct ok; [|reflexivity].
  apply Cut_found in E. subst opt.
  destruct (String.eqb_spec key "missingkey") as [->|?].
  - repeat (match goal with
            | |- context [String.eqb value ?s] =>
                destruct (String.eqb_spec value s) as [->|?]; [exfalso; eauto|]
            end); reflexivity.
  - destruct (String.eqb_spec key "onpanic") as [->|?]; [|reflexivity].
    repeat (match goal with
            | |- context [String.eqb value ?s] =>
                destruct (String.eqb_spec value s) as [->|?]; [exfalso; eauto|]
            end); reflexivity.
Qed.

End Table.

(** ** The loop of [Option] *)

Section Loop.

Implicit Types (h : heap) (t : ptr) (o : option) (e : effect).

Lemma bind_run {A B} (m : M A) (k : A -> M B) h :
  (m ≫= k) h = match m h with
               | Returned a h' => k a h'
               | Panicked v h' => Panicked v h'
               end.
Proof. reflexivity. Qed.

Lemma rangeSetOption_app t pre post h :
  rangeSetOption t (pre ++ post) h
  = (rangeSetOption t pre;; rangeSetOption t post) h.
Proof.
  revert h; induction pre as [|s pre IH]; intros h; simpl; [reflexivity|].
  rewrite !bind_run. destruct (setOption t s h) as [[] h1|v h1]; [|reflexivity].
  rewrite IH. now rewrite bind_run.
Qed.

Lemma applyAll_app pre post o :
  applyAll (pre ++ post) o = applyAll post (applyAll pre o).
Proof. unfold applyAll. now rewrite foldl_app. Qed.

Lemma rangeSetOption_recognized t opts :
  allRecognized opts ->
  forall h o, optionAt h t = Some o ->
  exists h', rangeSetOption t opts h = Returned tt h'
    /\ optionAt h' t = Some (applyAll opts o)
    /\ forall t', t <> t' -> h' !! t' = h !! t'.
Proof.
  induction 1 as [|s opts [e He] _ IH]; intros h o Ho; simpl.
  - now exists h.
  - rewrite bind_run, setOption_table, He, (runEffect_Returned h t o e Ho).
    destruct (IH _ (applyEffect e o) (optionAt_insert h t _))
      as (h' & Hrun & Hat & Hframe).
    exists h'. repeat split; [exact Hrun|exact Hat|].
    intros t' Hne. rewrite (Hframe t' Hne). now rewrite lookup_insert_ne.
Qed.

Lemma holds_applyEffect e o : holds e (applyEffect e o).
Proof. now destruct e. Qed.

(** Effects on the other field leave what an effect wrote. *)
Lemma holds_applyAll_other e post :
  Forall (fun s' => exists e', resolve s' = Some e' /\ sameField e e' = false)
    post ->
  forall o, holds e o -> holds e (applyAll post o).
Proof.
  induction 1 as [|s' post (e' & He' & Hother) _ IH]; intros o Ho;
    [exact Ho|].
  simpl. rewrite He'. apply IH.
  destruct e, e'; simpl in *; congruence.
Qed.

End Loop.

(** ** What every call preserves *)

Section Invariant.

Implicit Types (h : heap) (t : ptr) (o : option) (e : effect).

Lemma evolves_refl h : evolves h h.
Proof. now split. Qed.

Lemma evolves_trans h1 h2 h3 : evolves h1 h2 -> evolves h2 h3 -> evolves h1 h3.
Proof. intros [V1 S1] [V2 S2]. split; auto. Qed.

Lemma preserves_ret {A} (a : A) : preserves evolves (mret a : M A).
Proof. intros h. apply evolves_refl. Qed.

Lemma preserves_panic {A} v : preserves evolves (panic v : M A).
Proof. intros h. apply evolves_refl. Qed.

Lemma preserves_bind {A B} (m : M A) (k : A -> M B) :
  preserves evolves m -> (forall a, preserves evolves (k a)) ->
  preserves evolves (m ≫= k).
Proof.
  intros Hm Hk h. rewrite bind_run. specialize (Hm h).
  destruct (m h) as [a h1|v h1]; simpl in *; [|exact Hm].
  eapply evolves_trans; [exact Hm|apply Hk].
Qed.

(** Overwriting the store of a template by a valid store. *)
Lemma evolves_insert h t o :
  validOption o = true -> evolves h (<[t := {| store := Some o |}]> h).
Proof.
  intros Ho. split.
  - intros Hv t' o' H'. destruct (decide (t = t')) as [<-|Hne].
    + rewrite optionAt_insert in H'. congruence.
    + rewrite optionAt_insert_ne in H' by exact Hne. eauto.
  - intros t' Hs. destruct (decide (t = t')) as [<-|Hne].
    + rewrite optionAt_insert. eauto.
    + now rewrite optionAt_insert_ne.
Qed.

Lemma resolve_valid opt e o :
  resolve opt = Some e -> validOption o = true ->
  validOption (applyEffect e o) = true.
Proof.
  rewrite resolve_unfold. unfold validOption. intros He Ho.
  apply andb_true_iff in Ho as [Hm Hp].
  repeat (match type of He with
          | context [String.eqb opt ?s] => destruct (String.eqb opt s)
          end; [injection He as <-; simpl; now rewrite ?Hm, ?Hp|]).
  discriminate.
Qed.

Lemma preserves_init t : preserves evolves (init t).
Proof.
  intros h. unfold init. destruct (h !! t) as [[[o|]]|]; simpl;
    try apply evolves_refl.
  now apply evolves_insert.
Qed.

Lemma preserves_setOption t opt : preserves evolves (setOption t opt).
Proof.
  intros h. rewrite setOption_table.
  destruct (resolve opt) as [e|] eqn:He; [|apply evolves_refl].
  destruct (optionAt h t) as [o|] eqn:Ho.
  - rewrite (runEffect_Returned h t o e Ho). simpl. split.
    + intros Hv. apply (evolves_insert h t); [|exact Hv].
      eapply resolve_valid; eauto.
    + intros t' Hs. destruct (decide (t = t')) as [<-|Hne].
      * rewrite optionAt_insert. eauto.
      * now rewrite optionAt_insert_ne.
  - rewrite (runEffect_nil h t e Ho). apply evolves_refl.
Qed.

Lemma preserves_rangeSetOption t opts : preserves evolves (rangeSetOption t opts).
Proof.
  induction opts as [|s opts IH]; simpl.
  - apply preserves_ret.
  - apply preserves_bind; [apply preserves_setOption|intros _; exact IH].
Qed.

Lemma preserves_Option t opts : preserves evolves (Option t opts).
Proof.
  unfold Option. apply preserves_bind; [apply preserves_init|intros _].
  apply preserves_bind; [apply preserves_rangeSetOption|intros _].
  apply preserves_ret.
Qed.

Lemma step_evolves h h' : step h h' -> evolves h h'.
Proof.
  destruct 1; [apply preserves_init|apply preserves_setOption
              |apply preserves_Option].
Qed.

Lemma steps_evolve h h' : rtc step h h' -> evolves h h'.
Proof.
  induction 1 as [|h1 h2 h3 H12 _ IH]; [apply evolves_refl|].
  eapply evolves_trans; [apply step_evolves; exact H12|exact IH].
Qed.

End Invariant.

(** ** Running [Option] *)

Section Running.

Implicit Types (h : heap) (t : ptr) (o : option) (e : effect).

Lemma init_store h t h' :
  init t h = Returned tt h' -> is_Some (optionAt h' t).
Proof.
  unfold init. destruct (h !! t) as [[[o|]]|] eqn:E; [| |discriminate].
  - intros [= <-]. exists o. now apply optionAt_Some.
  - intros [= <-]. rewrite optionAt_insert. eauto.
Qed.

(** On a live template and strings of the table, [Option] returns its
    receiver; the store is the initialised one, overwritten from left to
    right, and no other template is touched. *)
Lemma Option_recognized t opts h tm :
  h !! t = Some tm -> allRecognized opts ->
  exists h', Option t opts h = Returned t h'
    /\ optionAt h' t = Some (applyAll opts (default zeroOption (store tm)))
    /\ forall t', t <> t' -> h' !! t' = h !! t'.
Proof.
  intros Ht Hopts. unfold Option.
  destruct (init_Returned h t tm Ht) as (h1 & Hinit & Hat1 & Hframe1).
  destruct (rangeSetOption_recognized t opts Hopts h1 _ Hat1)
    as (h2 & Hrun & Hat2 & Hframe2).
  exists h2. rewrite bind_run, Hinit, bind_run, Hrun.
  repeat split; [exact Hat2|].
  intros t' Hne. now rewrite Hframe2, Hframe1.
Qed.

(** One call with the strings [pre ++ post] is a call with [pre] followed
    by a call with [post] on the pointer the first call returned. *)
Lemma Option_app t pre post h :
  Option t (pre ++ post) h = (Option t pre ≫= fun t' => Option t' post) h.
Proof.
  unfold Option. rewrite !bind_run.
  destruct (init t h) as [[] h1|v h1] eqn:Hinit; [|reflexivity].
  rewrite !bind_run, rangeSetOption_app, bind_run.
  pose proof (preserves_rangeSetOption t pre h1) as [_ Hstore].
  destruct (rangeSetOption t pre h1) as [[] h2|v h2]; [|reflexivity].
  simpl in Hstore. destruct (Hstore t (init_store _ _ _ Hinit)) as [o Ho].
  cbn. rewrite !bind_run, (init_initialised h2 t o Ho). reflexivity.
Qed.

(** A sequence with a string outside the table has a first such string. *)
Lemma first_unrecognized opts :
  Exists (fun s => resolve s = None) opts ->
  exists pre bad post,
    opts = (pre ++ bad :: post)%list /\ allRecognized pre
    /\ resolve bad = None.
Proof.
  induction opts as [|s opts IH]; intros Hex; [inversion Hex|].
  destruct (resolve s) as [e|] eqn:Hs.
  - apply Exists_cons in Hex as [Hbad|Hex]; [congruence|].
    destruct (IH Hex) as (pre & bad & post & -> & Hpre & Hbad).
    exists (s :: pre), bad, post. repeat split; [|exact Hbad].
    constructor; [rewrite Hs; eauto|exact Hpre].
  - exists [], s, opts. repeat split; [constructor|exact Hs].
Qed.

Lemma optionString_nonempty key value :
  String.eqb (optionString key value) "" = false.
Proof. unfold optionString. now destruct key. Qed.

(** A pair outside the table makes a string outside the table. *)
Lemma tableEffect_resolve key value :
  tableEffect key value = None -> resolve (optionString key value) = None.
Proof.
  intros Hnone. rewrite resolve_unfold.
  repeat (match goal with
          | |- context [String.eqb (optionString key value) ?s] =>
              destruct (String.eqb_spec (optionString key value) s) as [E|_]
          end;
          [exfalso;
           match type of E with
           | _ = ?s =>
               match eval vm_compute in (Cut s "=") with
               | (?k, ?v, _) =>
                   apply (optionString_inj key value k v) in E as [-> ->];
                   [discriminate Hnone|reflexivity|reflexivity]
               end
           end|]).
  reflexivity.
Qed.

End Running.

(** ** The properties of the specification *)

Section Properties.

Implicit Types (h : heap) (t : ptr) (o : option) (e : effect).

(** C1: each of the six option strings of the recognized table, applied by
    [Option] to a live template, succeeds and sets the field of its row to
    exactly the mapped constant (mapInvalid, mapInvalid, mapZeroValue,
    mapError, panicRecover, panicNop), which the matching accessor then
    returns. *)
Theorem Option_table_strings t h tm :
  h !! t = Some tm ->
  OptionSets t h "missingkey=invalid" (SetMissingKey mapInvalid)
  /\ OptionSets t h "missingkey=default" (SetMissingKey mapInvalid)
  /\ OptionSets t h "missingkey=zero" (SetMissingKey mapZeroValue)
  /\ OptionSets t h "missingkey=error" (SetMissingKey mapError)
  /\ OptionSets t h "onpanic=recover" (SetOnPanic panicRecover)
  /\ OptionSets t h "onpanic=nop" (SetOnPanic panicNop).
Proof.
  intros Ht.
  assert (Hone : forall s e, resolve s = Some e -> OptionSets t h s e).
  { intros s e He.
    destruct (Option_recognized t [s] h tm Ht) as (h' & Hrun & Hat & _).
    { constructor; [rewrite He; eauto|constructor]. }
    exists h'. split; [exact Hrun|].
    unfold accessorReturns, currentMissingKeyPolicy, currentFaultPolicy.
    rewrite Hat. simpl. rewrite He. now destruct e. }
  repeat split; now apply Hone.
Qed.

Lemma Option_table_strings_witness :
  OptionSets 1%positive freshHeap "missingkey=invalid" (SetMissingKey mapInvalid)
  /\ OptionSets 1%positive freshHeap "missingkey=default" (SetMissingKey mapInvalid)
  /\ OptionSets 1%positive freshHeap "missingkey=zero" (SetMissingKey mapZeroValue)
  /\ OptionSets 1%positive freshHeap "missingkey=error" (SetMissingKey mapError)
  /\ OptionSets 1%positive freshHeap "onpanic=recover" (SetOnPanic panicRecover)
  /\ OptionSets 1%positive freshHeap "onpanic=nop" (SetOnPanic panicNop).
Proof.
  apply (Option_table_strings 1%positive freshHeap {| store := None |}).
  reflexivity.
Defined.

(** C2: when the strings handed to [Option] on a live template contain a
    string outside the table, they split at the first such string [bad]
    into [pre ++ bad :: post], and the call panics at [bad]: the heap of
    the panic is the heap [h1] that [Option] with [pre] alone returns (the
    earlier strings stay applied), [bad] on [h1] panics and leaves [h1] as
    it is, and the outcome is the same whatever strings follow [bad]. *)
Theorem Option_stops_at_first_invalid t h tm opts :
  h !! t = Some tm ->
  Exists (fun s => resolve s = None) opts ->
  exists pre bad post h1,
    opts = (pre ++ bad :: post)%list
    /\ allRecognized pre /\ resolve bad = None
    /\ Option t pre h = Returned t h1
    /\ optionAt h1 t = Some (applyAll pre (default zeroOption (store tm)))
    /\ setOption t bad h1 = Panicked (rejection bad) h1
    /\ Option t opts h = Panicked (rejection bad) h1
    /\ forall post', Option t (pre ++ bad :: post') h
                     = Panicked (rejection bad) h1.
Proof.
  intros Ht Hex.
  destruct (first_unrecognized opts Hex) as (pre & bad & post & -> & Hpre & Hbad).
  destruct (Option_recognized t pre h tm Ht Hpre) as (h1 & Hrun & Hat & _).
  assert (Hpanic : setOption t bad h1 = Panicked (rejection bad) h1).
  { now rewrite setOption_table, Hbad. }
  assert (Hstop : forall post', Option t (pre ++ bad :: post') h
                                = Panicked (rejection bad) h1).
  { intros post'. rewrite Option_app, bind_run, Hrun. unfold Option.
    rewrite bind_run, (init_initialised h1 t _ Hat), bind_run. simpl.
    now rewrite bind_run, Hpanic. }
  exists pre, bad, post, h1.
  repeat split; [exact Hpre|exact Hbad|exact Hrun|exact Hat|exact Hpanic
                |apply Hstop|exact Hstop].
Qed.

Lemma Option_stops_at_first_invalid_witness :
  exists pre bad post h1,
    ["missingkey=zero"; "missingkey=bogus"; "onpanic=nop"]
    = (pre ++ bad :: post)%list
    /\ allRecognized pre /\ resolve bad = None
    /\ Option 1%positive pre freshHeap = Returned 1%positive h1
    /\ optionAt h1 1%positive
       = Some (applyAll pre (default zeroOption None))
    /\ setOption 1%positive bad h1 = Panicked (rejection bad) h1
    /\ Option 1%positive
         ["missingkey=zero"; "missingkey=bogus"; "onpanic=nop"] freshHeap
       = Panicked (rejection bad) h1
    /\ forall post', Option 1%positive (pre ++ bad :: post') freshHeap
                     = Panicked (rejection bad) h1.
Proof.
  apply (Option_stops_at_first_invalid 1%positive freshHeap
           {| store := None |}
           ["missingkey=zero"; "missingkey=bogus"; "onpanic=nop"]).
  - reflexivity.
  - apply Exists_cons_tl, Exists_cons_hd. reflexivity.
Defined.

(** C3: for every key and value that are not a row of the table (an
    unrecognized key, or a recognized key with an unrecognized value),
    [setOption] on the string [key=value] panics, whatever the receiver;
    the panic value is the "unrecognized option: " message followed by
    the option string verbatim, and the heap of the panic is the heap
    the call started from: nothing is defaulted or retried. *)
Theorem setOption_outside_table t h key value :
  tableEffect key value = None ->
  setOption t (optionString key value) h
  = Panicked ("unrecognized option: " ++ optionString key value) h.
Proof.
  intros Hnone. apply tableEffect_resolve in Hnone.
  rewrite setOption_table, Hnone. unfold rejection.
  now rewrite optionString_nonempty.
Qed.

Lemma setOption_outside_table_witness :
  setOption 1%positive (optionString "missingkey" "bogus") usedHeap
  = Panicked ("unrecognized option: " ++ optionString "missingkey" "bogus")
      usedHeap.
Proof.
  apply (setOption_outside_table 1%positive usedHeap "missingkey" "bogus").
  reflexivity.
Defined.

(** C5: on the empty string [setOption] always panics, with the value
    "empty option string", and leaves the heap as it is; [Option] on a
    live template therefore panics with that value as soon as it reaches
    an empty string, the store holding what the strings before it set. *)
Theorem setOption_empty t h :
  setOption t "" h = Panicked "empty option string" h
  /\ forall tm pre post,
       h !! t = Some tm -> allRecognized pre ->
       exists h', Option t (pre ++ "" :: post) h
                  = Panicked "empty option string" h'
         /\ optionAt h' t = Some (applyAll pre (default zeroOption (store tm))).
Proof.
  split; [reflexivity|].
  intros tm pre post Ht Hpre.
  destruct (Option_recognized t pre h tm Ht Hpre) as (h1 & Hrun & Hat & _).
  exists h1. split; [|exact Hat].
  rewrite Option_app, bind_run, Hrun. unfold Option.
  now rewrite bind_run, (init_initialised h1 t _ Hat).
Qed.

Lemma setOption_empty_witness :
  exists h', Option 1%positive (["onpanic=nop"] ++ "" :: ["missingkey=zero"])
               freshHeap
             = Panicked "empty option string" h'
    /\ optionAt h' 1%positive
       = Some (applyAll ["onpanic=nop"] (default zeroOption None)).
Proof.
  apply (proj2 (setOption_empty 1%positive freshHeap)
           {| store := None |} ["onpanic=nop"] ["missingkey=zero"]).
  - reflexivity.
  - repeat constructor. vm_compute. eauto.
Defined.

(** C6: on every string without the byte '=' [setOption] panics (with
    "empty option string" for the empty string, with the "unrecognized
    option: " message and the string otherwise) and leaves the heap as it
    is: no string without '=' is an option. *)
Theorem setOption_without_equals t h opt :
  hasByte "=" opt = false ->
  setOption t opt h = Panicked (rejection opt) h.
Proof.
  intros Hno. unfold setOption, rejection.
  destruct (String.eqb opt ""); [reflexivity|].
  now rewrite (Cut_byte_absent "=" opt Hno).
Qed.

Lemma setOption_without_equals_witness :
  setOption 1%positive "missingkey" usedHeap
  = Panicked (rejection "missingkey") usedHeap.
Proof.
  apply (setOption_without_equals 1%positive usedHeap "missingkey").
  reflexivity.
Defined.

(** C7: "missingkey=default" and "missingkey=invalid" are the same
    computation: on every heap they have the same outcome, and on a
    template that has a store both return the same heap, in which
    missingKey is mapInvalid. *)
Theorem setOption_default_is_invalid t h :
  setOption t "missingkey=default" h = setOption t "missingkey=invalid" h
  /\ Option t ["missingkey=default"] h = Option t ["missingkey=invalid"] h
  /\ forall o, optionAt h t = Some o ->
       exists h', setOption t "missingkey=default" h = Returned tt h'
         /\ setOption t "missingkey=invalid" h = Returned tt h'
         /\ currentMissingKeyPolicy h' t = Some mapInvalid
         /\ currentFaultPolicy h' t = Some (onPanic o).
Proof.
  split; [reflexivity|]. split; [reflexivity|].
  intros o Ho. eexists. split; [|split].
  - rewrite setOption_table.
    exact (runEffect_Returned h t o (SetMissingKey mapInvalid) Ho).
  - rewrite setOption_table.
    exact (runEffect_Returned h t o (SetMissingKey mapInvalid) Ho).
  - unfold currentMissingKeyPolicy, currentFaultPolicy.
    now rewrite optionAt_insert.
Qed.

Lemma setOption_default_is_invalid_witness :
  exists h', setOption 1%positive "missingkey=default" usedHeap = Returned tt h'
    /\ setOption 1%positive "missingkey=invalid" usedHeap = Returned tt h'
    /\ currentMissingKeyPolicy h' 1%positive = Some mapInvalid
    /\ currentFaultPolicy h' 1%positive = Some panicNop.
Proof.
  apply (proj2 (proj2 (setOption_default_is_invalid 1%positive usedHeap))
           {| missingKey := mapError; onPanic := panicNop |}).
  reflexivity.
Defined.

(** C4: the store a template receives when it is initialised is the zero
    value, whose fields are mapInvalid and panicRecover: after [init], and
    after [Option] without strings, both accessors return these defaults.
    From then on, whatever calls of [init], [setOption] and [Option] are
    made on whatever templates and whether they return or panic, every
    store keeps holding declared constants in both fields, and a template
    that has a store never loses it. *)
Theorem store_defaults_and_validity :
  zeroOption = {| missingKey := mapInvalid; onPanic := panicRecover |}
  /\ (forall t h, h !! t = Some {| store := None |} ->
        exists h', init t h = Returned tt h'
          /\ Option t [] h = Returned t h'
          /\ currentMissingKeyPolicy h' t = Some mapInvalid
          /\ currentFaultPolicy h' t = Some panicRecover)
  /\ (forall h h', heapValid h -> rtc step h h' ->
        heapValid h'
        /\ forall t, is_Some (optionAt h t) -> is_Some (optionAt h' t)).
Proof.
  split; [reflexivity|]. split.
  - intros t h Ht. eexists. unfold Option.
    rewrite !bind_run. unfold init. rewrite Ht. simpl.
    unfold currentMissingKeyPolicy, currentFaultPolicy.
    rewrite optionAt_insert. repeat split.
  - intros h h' Hv Hsteps. destruct (steps_evolve h h' Hsteps) as [V S].
    split; [exact (V Hv)|exact S].
Qed.

Lemma store_defaults_and_validity_witness :
  (exists h', init 1%positive freshHeap = Returned tt h'
     /\ Option 1%positive [] freshHeap = Returned 1%positive h'
     /\ currentMissingKeyPolicy h' 1%positive = Some mapInvalid
     /\ currentFaultPolicy h' 1%positive = Some panicRecover)
  /\ heapValid (heapOf (Option 1%positive ["missingkey=error"] freshHeap)).
Proof.
  destruct store_defaults_and_validity as (_ & Hfresh & Hsteps).
  split.
  - apply (Hfresh 1%positive freshHeap). reflexivity.
  - apply (Hsteps freshHeap).
    + intros t o. unfold optionAt, freshHeap.
      destruct (decide (t = 1%positive)) as [->|Hne].
      * rewrite lookup_singleton_eq. discriminate.
      * rewrite lookup_singleton_ne by congruence. discriminate.
    + apply rtc_once, step_Option.
Defined.

(** C8: the strings are processed from left to right: one call with
    [pre ++ post] is the call with [pre] followed by the call with [post].
    When all strings are recognized, a field ends with the value of the
    last string that names it: the string [s] with effect [e], followed only
    by strings that set the other field, leaves the value of [e] in its
    field, whatever the strings [pre] before it had set.  In particular
    ["missingkey=zero"; "missingkey=error"] leaves missingKey at mapError. *)
Theorem Option_last_write_wins t h :
  (forall pre post,
     Option t (pre ++ post) h = (Option t pre ≫= fun t' => Option t' post) h)
  /\ (forall tm pre s e post,
        h !! t = Some tm -> allRecognized pre -> resolve s = Some e ->
        Forall (fun s' => exists e', resolve s' = Some e'
                                     /\ sameField e e' = false) post ->
        exists h', Option t (pre ++ s :: post) h = Returned t h'
          /\ accessorReturns h' t e)
  /\ (forall tm, h !! t = Some tm ->
        exists h',
          Option t ["missingkey=zero"; "missingkey=error"] h = Returned t h'
          /\ currentMissingKeyPolicy h' t = Some mapError).
Proof.
  assert (Hlast : forall tm pre s e post,
    h !! t = Some tm -> allRecognized pre -> resolve s = Some e ->
    Forall (fun s' => exists e', resolve s' = Some e'
                                 /\ sameField e e' = false) post ->
    exists h', Option t (pre ++ s :: post) h = Returned t h'
      /\ accessorReturns h' t e).
  { intros tm pre s e post Ht Hpre He Hpost.
    assert (Hall : allRecognized (pre ++ s :: post)).
    { apply Forall_app. split; [exact Hpre|]. constructor; [rewrite He; eauto|].
      eapply Forall_impl; [exact Hpost|]. intros s' (e' & -> & _). eauto. }
    destruct (Option_recognized t _ h tm Ht Hall) as (h' & Hrun & Hat & _).
    exists h'. split; [exact Hrun|].
    rewrite applyAll_app in Hat. simpl in Hat. rewrite He in Hat.
    pose proof (holds_applyAll_other e post Hpost _
                  (holds_applyEffect e
                     (applyAll pre (default zeroOption (store tm))))) as Hh.
    unfold accessorReturns, currentMissingKeyPolicy, currentFaultPolicy.
    rewrite Hat. destruct e; simpl in *; now rewrite Hh. }
  split; [intros pre post; apply Option_app|]. split; [exact Hlast|].
  intros tm Ht.
  apply (Hlast tm ["missingkey=zero"] "missingkey=error"
           (SetMissingKey mapError) [] Ht); [|reflexivity|constructor].
  repeat constructor. vm_compute. eauto.
Qed.

Lemma Option_last_write_wins_witness :
  (exists h',
     Option 1%positive (["missingkey=zero"] ++ "missingkey=error"
                          :: ["onpanic=nop"]) usedHeap
     = Returned 1%positive h'
     /\ accessorReturns h' 1%positive (SetMissingKey mapError))
  /\ (exists h',
        Option 1%positive ["missingkey=zero"; "missingkey=error"] freshHeap
        = Returned 1%positive h'
        /\ currentMissingKeyPolicy h' 1%positive = Some mapError).
Proof.
  split.
  - apply (proj1 (proj2 (Option_last_write_wins 1%positive usedHeap))
             {| store := Some {| missingKey := mapError; onPanic := panicNop |} |}
             ["missingkey=zero"] "missingkey=error" (SetMissingKey mapError)
             ["onpanic=nop"]).
    + reflexivity.
    + repeat constructor. vm_compute. eauto.
    + reflexivity.
    + repeat constructor. exists (SetOnPanic panicNop). split; reflexivity.
  - apply (proj2 (proj2 (Option_last_write_wins 1%positive freshHeap))
             {| store := None |}).
    reflexivity.
Defined.

(** C9: on a template that has a store, a string of the table returns and
    overwrites the one field its row names: the other field of the store
    keeps its value and every other template of the heap is unchanged.
    Whenever [setOption] returns on a string whose key is "missingkey",
    onPanic is what it was, and whenever it returns on a string whose key
    is "onpanic", missingKey is what it was.  In particular
    ["onpanic=nop"; "missingkey=error"] yields onPanic = panicNop and
    missingKey = mapError together. *)
Theorem setOption_overwrites_one_field t h :
  (forall o opt e,
     optionAt h t = Some o -> resolve opt = Some e ->
     exists h' o',
       setOption t opt h = Returned tt h'
       /\ optionAt h' t = Some o'
       /\ match e with
          | SetMissingKey a => missingKey o' = a /\ onPanic o' = onPanic o
          | SetOnPanic a => onPanic o' = a /\ missingKey o' = missingKey o
          end
       /\ forall t', t <> t' -> h' !! t' = h !! t')
  /\ (forall o opt key value h',
        optionAt h t = Some o ->
        Cut opt "=" = (key, value, true) ->
        setOption t opt h = Returned tt h' ->
        (key = "missingkey" -> currentFaultPolicy h' t = Some (onPanic o))
        /\ (key = "onpanic" ->
            currentMissingKeyPolicy h' t = Some (missingKey o)))
  /\ (forall tm, h !! t = Some tm ->
        exists h',
          Option t ["onpanic=nop"; "missingkey=error"] h = Returned t h'
          /\ currentFaultPolicy h' t = Some panicNop
          /\ currentMissingKeyPolicy h' t = Some mapError).
Proof.
  split; [|split].
  - intros o opt e Ho He.
    exists (<[t := {| store := Some (applyEffect e o) |}]> h), (applyEffect e o).
    rewrite setOption_table, He. repeat split.
    + exact (runEffect_Returned h t o e Ho).
    + apply optionAt_insert.
    + now destruct e.
    + intros t' Hne. now rewrite lookup_insert_ne.
  - intros o opt key value h' Ho Hcut Hrun.
    rewrite setOption_table in Hrun.
    destruct (resolve opt) as [e|] eqn:He; [|discriminate].
    rewrite (runEffect_Returned h t o e Ho) in Hrun. injection Hrun as <-.
    unfold currentFaultPolicy, currentMissingKeyPolicy.
    rewrite optionAt_insert.
    rewrite resolve_unfold in He.
    repeat (match type of He with
            | context [String.eqb opt ?s] =>
                destruct (String.eqb_spec opt s) as [->|_]
            end;
            [injection He as <-; vm_compute in Hcut; injection Hcut as <- <-;
             split; intros Hkey; try discriminate Hkey; reflexivity|]).
    discriminate.
  - intros tm Ht.
    destruct (Option_recognized t ["onpanic=nop"; "missingkey=error"] h tm Ht)
      as (h' & Hrun & Hat & _).
    { repeat constructor; vm_compute; eauto. }
    exists h'. split; [exact Hrun|].
    unfold currentFaultPolicy, currentMissingKeyPolicy. rewrite Hat.
    split; reflexivity.
Qed.

Lemma setOption_overwrites_one_field_witness :
  (exists h' o',
     setOption 1%positive "missingkey=zero" usedHeap = Returned tt h'
     /\ optionAt h' 1%positive = Some o'
     /\ (missingKey o' = mapZeroValue /\ onPanic o' = panicNop)
     /\ forall t', 1%positive <> t' -> h' !! t' = usedHeap !! t')
  /\ ((("onpanic" : string) = "missingkey" ->
       currentFaultPolicy (heapOf (setOption 1%positive "onpanic=recover" usedHeap))
         1%positive = Some panicNop)
      /\ (("onpanic" : string) = "onpanic" ->
          currentMissingKeyPolicy
            (heapOf (setOption 1%positive "onpanic=recover" usedHeap))
            1%positive = Some mapError))
  /\ (exists h',
        Option 1%positive ["onpanic=nop"; "missingkey=error"] freshHeap
        = Returned 1%positive h'
        /\ currentFaultPolicy h' 1%positive = Some panicNop
        /\ currentMissingKeyPolicy h' 1%positive = Some mapError).
Proof.
  destruct (setOption_overwrites_one_field 1%positive usedHeap)
    as (Hone & Hkey & _).
  destruct (setOption_overwrites_one_field 1%positive freshHeap)
    as (_ & _ & Hexample).
  split; [|split].
  - apply (Hone {| missingKey := mapError; onPanic := panicNop |}
             "missingkey=zero" (SetMissingKey mapZeroValue)); reflexivity.
  - apply (Hkey {| missingKey := mapError; onPanic := panicNop |}
             "onpanic=recover" "onpanic" "recover"); reflexivity.
  - apply (Hexample {| store := None |}). reflexivity.
Defined.

(** C10: whenever [Option] returns, the pointer it returns is its receiver.
    On a live template and recognized strings it does return; the heap it
    returns holds the updated store at the receiver and exactly what it
    held before at every other pointer (no template is added), and a
    further call on the returned pointer continues from there, as one call
    with all the strings would. *)
Theorem Option_returns_receiver t h opts :
  (forall t' h', Option t opts h = Returned t' h' -> t' = t)
  /\ (forall tm,
        h !! t = Some tm -> allRecognized opts ->
        exists h',
          Option t opts h = Returned t h'
          /\ optionAt h' t
             = Some (applyAll opts (default zeroOption (store tm)))
          /\ (forall t', t <> t' -> h' !! t' = h !! t')
          /\ forall more, Option t (opts ++ more) h = Option t more h').
Proof.
  split.
  - intros t' h'. unfold Option. rewrite bind_run.
    destruct (init t h) as [[] h1|v h1]; [|discriminate].
    rewrite bind_run.
    destruct (rangeSetOption t opts h1) as [[] h2|v h2]; [|discriminate].
    now intros [= <- <-].
  - intros tm Ht Hopts.
    destruct (Option_recognized t opts h tm Ht Hopts)
      as (h' & Hrun & Hat & Hframe).
    exists h'. repeat split; [exact Hrun|exact Hat|exact Hframe|].
    intros more. now rewrite Option_app, bind_run, Hrun.
Qed.

Lemma Option_returns_receiver_witness :
  1%positive = 1%positive
  /\ exists h',
       Option 1%positive ["onpanic=nop"] freshHeap = Returned 1%positive h'
       /\ optionAt h' 1%positive
          = Some (applyAll ["onpanic=nop"] (default zeroOption None))
       /\ (forall t', 1%positive <> t' -> h' !! t' = freshHeap !! t')
       /\ forall more,
            Option 1%positive (["onpanic=nop"] ++ more) freshHeap
            = Option 1%positive more h'.
Proof.
  destruct (Option_returns_receiver 1%positive freshHeap ["onpanic=nop"])
    as [Hsame Hruns].
  split.
  - apply (Hsame 1%positive
             (heapOf (Option 1%positive ["onpanic=nop"] freshHeap))).
    reflexivity.
  - apply (Hruns {| store := None |}).
    + reflexivity.
    + repeat constructor. vm_compute. eauto.
Defined.

End Properties.

(** ** How option strings compose *)

Section Composition.

Implicit Types (h : heap) (t : ptr) (o : option) (e : effect).

Lemma applyEffect_absorb e1 e2 o :
  sameField e1 e2 = true ->
  applyEffect e2 (applyEffect e1 o) = applyEffect e2 o.
Proof. destruct e1, e2; simpl; congruence. Qed.

Lemma applyEffect_comm e1 e2 o :
  sameField e1 e2 = false ->
  applyEffect e2 (applyEffect e1 o) = applyEffect e1 (applyEffect e2 o).
Proof. destruct e1, e2; simpl; congruence. Qed.

Lemma applyEffect_idem e o : applyEffect e (applyEffect e o) = applyEffect e o.
Proof. now destruct e. Qed.

(** A later effect on the same field hides an earlier one, whatever
    recognized strings stand between them. *)
Lemma applyAll_absorb e1 e2 mid o :
  sameField e1 e2 = true -> allRecognized mid ->
  applyEffect e2 (applyAll mid (applyEffect e1 o))
  = applyEffect e2 (applyAll mid o).
Proof.
  intros Hsame Hmid. revert o.
  induction Hmid as [|s mid [e He] _ IH]; intros o; simpl.
  - now apply applyEffect_absorb.
  - rewrite He. destruct (sameField e1 e) eqn:H1.
    + now rewrite applyEffect_absorb.
    + rewrite (applyEffect_comm e1 e o H1). apply IH.
Qed.

(** The heap after recognized strings, in closed form. *)
Lemma rangeSetOption_recognized_heap t opts h o :
  optionAt h t = Some o -> allRecognized opts ->
  rangeSetOption t opts h
  = Returned tt (<[t := {| store := Some (applyAll opts o) |}]> h).
Proof.
  intros Ho Hopts. revert h o Ho.
  induction Hopts as [|s opts [e He] _ IH]; intros h o Ho; simpl.
  - unfold mret, M_ret. f_equal. symmetry. apply insert_id.
    now apply optionAt_Some.
  - rewrite bind_run, setOption_table, He, (runEffect_Returned h t o e Ho).
    rewrite (IH _ (applyEffect e o) (optionAt_insert h t _)).
    now rewrite insert_insert_eq.
Qed.

(** Recognized strings at the head of the loop act as one overwrite. *)
Lemma rangeSetOption_prefix t opts rest h o :
  optionAt h t = Some o -> allRecognized opts ->
  rangeSetOption t (opts ++ rest) h
  = rangeSetOption t rest (<[t := {| store := Some (applyAll opts o) |}]> h).
Proof.
  intros Ho Hopts.
  now rewrite rangeSetOption_app, bind_run,
    (rangeSetOption_recognized_heap t opts h o Ho Hopts).
Qed.

(** Two tails that the loop cannot tell apart on an initialised template
    cannot be told apart by [Option] either, after any strings [pre]. *)
Lemma Option_tail_congruence t xs ys :
  (forall h o, optionAt h t = Some o ->
               rangeSetOption t xs h = rangeSetOption t ys h) ->
  forall pre h, Option t (pre ++ xs) h = Option t (pre ++ ys) h.
Proof.
  intros Hxy pre h. unfold Option. rewrite !bind_run.
  destruct (init t h) as [[] h1|v h1] eqn:Hinit; [|reflexivity].
  rewrite !bind_run, !rangeSetOption_app, !bind_run.
  pose proof (preserves_rangeSetOption t pre h1) as [_ Hstore].
  destruct (rangeSetOption t pre h1) as [[] h2|v h2]; [|reflexivity].
  simpl in Hstore. destruct (Hstore t (init_store _ _ _ Hinit)) as [o Ho].
  now rewrite (Hxy h2 o Ho).
Qed.

End Composition.

(** ** What a call leaves alone *)

Section Frame.

Variable R : heap -> heap -> Prop.
Hypothesis R_refl : forall h, R h h.
Hypothesis R_trans : forall h1 h2 h3, R h1 h2 -> R h2 h3 -> R h1 h3.



End Frame.

Section Elsewhere.

Implicit Types (h : heap) (t : ptr) (o : option) (e : effect).







Lemma resolve_recognizedStrings s :
  is_Some (resolve s) <-> s ∈ recognizedStrings.
Proof.
  rewrite resolve_unfold. unfold recognizedStrings. split.
  - repeat (match goal with
            | |- context [String.eqb s ?c] =>
                destruct (String.eqb_spec s c) as [->|_];
                [intros _; repeat ((by left) || right)|]
            end).
    intros [e He]. discriminate.
  - intros H.
    repeat (apply elem_of_cons in H; destruct H as [->|H];
            [vm_compute; eauto|]).
    now apply elem_of_nil in H.
Qed.

Lemma allRecognized_strings opts :
  allRecognized opts <-> Forall (fun s => s ∈ recognizedStrings) opts.
Proof.
  unfold allRecognized. apply Forall_proper; [|done].
  intros s. apply resolve_recognizedStrings.
Qed.

(** The loop returns only when every string is recognized. *)
Lemma rangeSetOption_Returned_recognized t opts :
  forall h o h', optionAt h t = Some o ->
  rangeSetOption t opts h = Returned tt h' -> allRecognized opts.
Proof.
  induction opts as [|s opts IH]; intros h o h' Ho; simpl; [constructor|].
  rewrite bind_run, setOption_table.
  destruct (resolve s) as [e|] eqn:He; [|discriminate].
  rewrite (runEffect_Returned h t o e Ho). intros Hrun.
  constructor; [rewrite He; eauto|].
  eapply IH; [apply optionAt_insert|exact Hrun].
Qed.

End Elsewhere.

(** ** Further properties of [Option] and [setOption] *)

Section Further.

Implicit Types (h : heap) (t : ptr) (o : option) (e : effect).

(** X1: on a live template, [Option] returns exactly when every string it
    is given is one of the six recognized strings; any other string in
    the sequence makes the call panic. *)
Theorem Option_returns_iff_recognized t h tm opts :
  h !! t = Some tm ->
  (exists t' h', Option t opts h = Returned t' h')
  <-> Forall (fun s => s ∈ recognizedStrings) opts.
Proof.
  intros Ht. rewrite <- allRecognized_strings. split.
  - intros (t' & h' & Hrun). unfold Option in Hrun.
    destruct (init_Returned h t tm Ht) as (h1 & Hinit & Hat & _).
    rewrite bind_run, Hinit, bind_run in Hrun.
    destruct (rangeSetOption t opts h1) as [[] h2|v h2] eqn:Hloop;
      [|discriminate].
    exact (rangeSetOption_Returned_recognized t opts h1 _ h2 Hat Hloop).
  - intros Hopts.
    destruct (Option_recognized t opts h tm Ht Hopts) as (h' & Hrun & _).
    eauto.
Qed.

Lemma Option_returns_iff_recognized_witness :
  (exists t' h',
     Option 1%positive ["onpanic=nop"; "Missingkey=zero"] freshHeap
     = Returned t' h')
  <-> Forall (fun s => s ∈ recognizedStrings) ["onpanic=nop"; "Missingkey=zero"].
Proof.
  apply (Option_returns_iff_recognized 1%positive freshHeap {| store := None |}).
  reflexivity.
Defined.

(** X2: giving the same option string twice in a row is the same as giving
    it once, for every string (recognized or not), every receiver and
    heap, and whatever strings stand before and after. *)
Theorem Option_repeated_string t pre s post h :
  Option t (pre ++ s :: s :: post) h = Option t (pre ++ s :: post) h.
Proof.
  apply Option_tail_congruence. clear h. intros h o Ho. simpl.
  rewrite !bind_run, setOption_table.
  destruct (resolve s) as [e|] eqn:He; [|reflexivity].
  rewrite (runEffect_Returned h t o e Ho), bind_run.
  rewrite (runEffect_Returned _ t _ e (optionAt_insert h t _)).
  now rewrite insert_insert_eq, applyEffect_idem.
Qed.

(** X3: two adjacent recognized strings that name different fields (one a
    missingkey string, the other an onpanic string) can be swapped: the
    call has the same outcome. *)
Theorem Option_swap_different_fields t pre a b post h ea eb :
  resolve a = Some ea -> resolve b = Some eb -> sameField ea eb = false ->
  Option t (pre ++ a :: b :: post) h = Option t (pre ++ b :: a :: post) h.
Proof.
  intros Ha Hb Hdiff. apply Option_tail_congruence. clear h. intros h o Ho.
  change (a :: b :: post) with ([a; b] ++ post)%list.
  change (b :: a :: post) with ([b; a] ++ post)%list.
  rewrite (rangeSetOption_prefix t [a; b] post h o Ho),
          (rangeSetOption_prefix t [b; a] post h o Ho).
  - simpl. rewrite Ha, Hb. now rewrite (applyEffect_comm ea eb o Hdiff).
  - repeat constructor; [rewrite Hb|rewrite Ha]; eauto.
  - repeat constructor; [rewrite Ha|rewrite Hb]; eauto.
Qed.

Lemma Option_swap_different_fields_witness :
  Option 1%positive (["missingkey=zero"] ++ "onpanic=nop" :: "missingkey=error"
                       :: ["bogus"]) freshHeap
  = Option 1%positive (["missingkey=zero"] ++ "missingkey=error" :: "onpanic=nop"
                         :: ["bogus"]) freshHeap.
Proof.
  apply (Option_swap_different_fields 1%positive ["missingkey=zero"]
           "onpanic=nop" "missingkey=error" ["bogus"] freshHeap
           (SetOnPanic panicNop) (SetMissingKey mapError)); reflexivity.
Defined.

(** X4: a recognized string is dead once a later recognized string of the
    same call names the same field, with only recognized strings between
    them: dropping the earlier string does not change the outcome of the
    call. *)
Theorem Option_overwritten_string_is_dead t pre a mid b post h ea eb :
  resolve a = Some ea -> resolve b = Some eb -> sameField ea eb = true ->
  allRecognized mid ->
  Option t (pre ++ a :: mid ++ b :: post) h
  = Option t (pre ++ mid ++ b :: post) h.
Proof.
  intros Ha Hb Hsame Hmid. apply Option_tail_congruence. clear h.
  intros h o Ho.
  assert (Hmidb : allRecognized (mid ++ [b])).
  { apply Forall_app. split; [exact Hmid|].
    repeat constructor. rewrite Hb. eauto. }
  assert (Hamidb : allRecognized (a :: mid ++ [b])).
  { constructor; [rewrite Ha; eauto|exact Hmidb]. }
  change (a :: mid ++ b :: post)%list with (a :: mid ++ [b] ++ post)%list.
  change (mid ++ b :: post)%list with (mid ++ [b] ++ post)%list.
  rewrite !app_assoc, app_comm_cons.
  rewrite (rangeSetOption_prefix t _ post h o Ho Hamidb),
          (rangeSetOption_prefix t _ post h o Ho Hmidb).
  simpl. rewrite Ha, !applyAll_app. simpl. rewrite Hb.
  now rewrite (applyAll_absorb ea eb mid o Hsame Hmid).
Qed.

Lemma Option_overwritten_string_is_dead_witness :
  Option 1%positive (["onpanic=nop"] ++ "missingkey=zero" :: ["onpanic=recover"]
                       ++ "missingkey=error" :: ["bogus"]) usedHeap
  = Option 1%positive (["onpanic=nop"] ++ ["onpanic=recover"]
                         ++ "missingkey=error" :: ["bogus"]) usedHeap.
Proof.
  apply (Option_overwritten_string_is_dead 1%positive ["onpanic=nop"]
           "missingkey=zero" ["onpanic=recover"] "missingkey=error" ["bogus"]
           usedHeap (SetMissingKey mapZeroValue) (SetMissingKey mapError));
    try reflexivity.
  repeat constructor. vm_compute. eauto.
Defined.

(** X5: an option string with more than one '=' is never accepted (there
    can be at most one equals sign in an option string): [setOption]
    panics with the "unrecognized option: " message and leaves the heap
    as it is, whatever the receiver. *)
Theorem setOption_two_equals t h opt :
  (2 <= countByte "=" opt)%nat ->
  setOption t opt h = Panicked ("unrecognized option: " ++ opt) h.
Proof.
  intros Hcount. rewrite setOption_table.
  assert (Hres : resolve opt = None).
  { rewrite resolve_unfold.
    repeat (match goal with
            | |- context [String.eqb opt ?s] =>
                destruct (String.eqb_spec opt s) as [->|_];
                [exfalso; vm_compute in Hcount; lia|]
            end).
    reflexivity. }
  rewrite Hres. unfold rejection.
  destruct opt; [simpl in Hcount; lia|reflexivity].
Qed.

Lemma setOption_two_equals_witness :
  setOption 1%positive "missingkey=zero=" usedHeap
  = Panicked ("unrecognized option: " ++ "missingkey=zero=") usedHeap.
Proof.
  apply (setOption_two_equals 1%positive usedHeap "missingkey=zero=").
  vm_compute. lia.
Defined.


(** X7: the store has no terminal state: from whatever a live template
    holds, every pair of declared constants is reached by one call of
    [Option] with two recognized strings. *)
Theorem Option_reaches_every_policy t h tm a b :
  h !! t = Some tm ->
  validMissingKey a = true -> validOnPanic b = true ->
  exists s1 s2 h',
    s1 ∈ recognizedStrings /\ s2 ∈ recognizedStrings
    /\ Option t [s1; s2] h = Returned t h'
    /\ optionAt h' t = Some {| missingKey := a; onPanic := b |}.
Proof.
  intros Ht Ha Hb.
  assert (Hrun : forall s1 s2 ea eb,
    resolve s1 = Some (SetMissingKey ea) -> resolve s2 = Some (SetOnPanic eb) ->
    exists h', Option t [s1; s2] h = Returned t h'
      /\ optionAt h' t = Some {| missingKey := ea; onPanic := eb |}).
  { intros s1 s2 ea eb H1 H2.
    destruct (Option_recognized t [s1; s2] h tm Ht) as (h' & Hr & Hat & _).
    { repeat constructor; [rewrite H1|rewrite H2]; eauto. }
    exists h'. split; [exact Hr|]. rewrite Hat. simpl. now rewrite H1, H2. }
  assert (Hin : forall s, is_Some (resolve s) -> s ∈ recognizedStrings).
  { intros s. apply resolve_recognizedStrings. }
  unfold validMissingKey, validOnPanic in *.
  assert (Ha' : a = mapInvalid \/ a = mapZeroValue \/ a = mapError).
  { destruct (Z.eqb_spec a mapInvalid); [auto|].
    destruct (Z.eqb_spec a mapZeroValue); [auto|].
    destruct (Z.eqb_spec a mapError); [auto|discriminate]. }
  assert (Hb' : b = panicRecover \/ b = panicNop).
  { destruct (Z.eqb_spec b panicRecover); [auto|].
    destruct (Z.eqb_spec b panicNop); [auto|discriminate]. }
  destruct Ha' as [->|[->| ->]]; destruct Hb' as [->| ->].
  - destruct (Hrun "missingkey=invalid" "onpanic=recover" _ _ eq_refl eq_refl)
      as (h' & ? & ?).
    exists "missingkey=invalid", "onpanic=recover", h'.
    repeat split; try done; apply Hin; vm_compute; eauto.
  - destruct (Hrun "missingkey=invalid" "onpanic=nop" _ _ eq_refl eq_refl)
      as (h' & ? & ?).
    exists "missingkey=invalid", "onpanic=nop", h'.
    repeat split; try done; apply Hin; vm_compute; eauto.
  - destruct (Hrun "missingkey=zero" "onpanic=recover" _ _ eq_refl eq_refl)
      as (h' & ? & ?).
    exists "missingkey=zero", "onpanic=recover", h'.
    repeat split; try done; apply Hin; vm_compute; eauto.
  - destruct (Hrun "missingkey=zero" "onpanic=nop" _ _ eq_refl eq_refl)
      as (h' & ? & ?).
    exists "missingkey=zero", "onpanic=nop", h'.
    repeat split; try done; apply Hin; vm_compute; eauto.
  - destruct (Hrun "missingkey=error" "onpanic=recover" _ _ eq_refl eq_refl)
      as (h' & ? & ?).
    exists "missingkey=error", "onpanic=recover", h'.
    repeat split; try done; apply Hin; vm_compute; eauto.
  - destruct (Hrun "missingkey=error" "onpanic=nop" _ _ eq_refl eq_refl)
      as (h' & ? & ?).
    exists "missingkey=error", "onpanic=nop", h'.
    repeat split; try done; apply Hin; vm_compute; eauto.
Qed.

Lemma Option_reaches_every_policy_witness :
  exists s1 s2 h',
    s1 ∈ recognizedStrings /\ s2 ∈ recognizedStrings
    /\ Option 1%positive [s1; s2] usedHeap = Returned 1%positive h'
    /\ optionAt h' 1%positive
       = Some {| missingKey := mapZeroValue; onPanic := panicRecover |}.
Proof.
  apply (Option_reaches_every_policy 1%positive usedHeap
           {| store := Some {| missingKey := mapError; onPanic := panicNop |} |}
           mapZeroValue panicRecover); reflexivity.
Defined.

(** X8: a call of [Option] never resets a field that none of its strings
    names: on a template that has a store, a call whose strings are all
    onpanic strings (or no string at all) returns with missingKey as it
    was, and a call whose strings are all missingkey strings returns with
    onPanic as it was. *)
Theorem Option_keeps_unnamed_field t h o opts :
  optionAt h t = Some o ->
  (Forall (fun s => exists a, resolve s = Some (SetOnPanic a)) opts ->
   exists h', Option t opts h = Returned t h'
     /\ currentMissingKeyPolicy h' t = Some (missingKey o))
  /\ (Forall (fun s => exists a, resolve s = Some (SetMissingKey a)) opts ->
      exists h', Option t opts h = Returned t h'
        /\ currentFaultPolicy h' t = Some (onPanic o)).
Proof.
  intros Ho.
  assert (Hkeep : forall e,
    Forall (fun s => exists e', resolve s = Some e' /\ sameField e e' = false)
      opts ->
    exists h', Option t opts h = Returned t h'
      /\ optionAt h' t = Some (applyAll opts o)
      /\ (holds e o -> holds e (applyAll opts o))).
  { intros e Hopts.
    destruct (Option_recognized t opts h _ (proj1 (optionAt_Some h t o) Ho))
      as (h' & Hrun & Hat & _).
    { eapply Forall_impl; [exact Hopts|]. intros s (e' & -> & _). eauto. }
    exists h'. repeat split; [exact Hrun|exact Hat|].
    apply holds_applyAll_other. exact Hopts. }
  split; intros Hopts.
  - destruct (Hkeep (SetMissingKey (missingKey o))) as (h' & Hrun & Hat & Hh).
    { eapply Forall_impl; [exact Hopts|]. intros s [a ->]. eauto. }
    exists h'. split; [exact Hrun|].
    unfold currentMissingKeyPolicy. rewrite Hat. simpl.
    f_equal. now apply Hh.
  - destruct (Hkeep (SetOnPanic (onPanic o))) as (h' & Hrun & Hat & Hh).
    { eapply Forall_impl; [exact Hopts|]. intros s [a ->]. eauto. }
    exists h'. split; [exact Hrun|].
    unfold currentFaultPolicy. rewrite Hat. simpl.
    f_equal. now apply Hh.
Qed.

Lemma Option_keeps_unnamed_field_witness :
  (exists h',
     Option 1%positive ["onpanic=recover"; "onpanic=nop"; "onpanic=recover"]
       usedHeap
     = Returned 1%positive h'
     /\ currentMissingKeyPolicy h' 1%positive = Some mapError)
  /\ (exists h',
        Option 1%positive [] usedHeap = Returned 1%positive h'
        /\ currentFaultPolicy h' 1%positive = Some panicNop).
Proof.
  split.
  - apply (proj1 (Option_keeps_unnamed_field 1%positive usedHeap
                    {| missingKey := mapError; onPanic := panicNop |}
                    ["onpanic=recover"; "onpanic=nop"; "onpanic=recover"]
                    eq_refl)).
    repeat constructor; vm_compute; eauto.
  - apply (proj2 (Option_keeps_unnamed_field 1%positive usedHeap
                    {| missingKey := mapError; onPanic := panicNop |} []
                    eq_refl)).
    constructor.
Defined.

End Further.

End template.
